(** * fileglob: a shallow embedding of src/lib/fileglob.js

    The library compiles glob patterns to JavaScript regular expressions
    ([FileGlob]), groups them into sets ([FileGlobSet], [Compliment],
    [Union]) and exposes the factories [make], [makeSet], [makeCompliment]
    and [makeUnion].  Strings are Rocq [string]s (one [ascii] per code
    unit).  The regular expression built by [FileGlob] is parsed and run by
    a model of the JavaScript [RegExp] constructor and of [RegExp.prototype.test]
    for the fragment of the syntax (Annex B, no flags) that the embedding
    needs; inputs beyond that fragment give [OutOfModel], never a guess. *)

From Stdlib Require Import String Ascii List Arith Lia Bool.
Import ListNotations.
Open Scope string_scope.
#[local] Set Warnings "-register-all".

(** ** Completions of JavaScript evaluation *)

Inductive exn := TypeError | SyntaxError.

Inductive completion (A : Type) : Type :=
| Normal (a : A)
| Throw (e : exn)
| OutOfModel.
Arguments Normal {A} a.
Arguments Throw {A} e.
Arguments OutOfModel {A}.

Definition cbind {A B} (c : completion A) (k : A -> completion B) : completion B :=
  match c with
  | Normal a => k a
  | Throw e => Throw e
  | OutOfModel => OutOfModel
  end.

(** [Array.prototype.map] with a callback that may throw. *)
Fixpoint cmap {A B} (f : A -> completion B) (l : list A) : completion (list B) :=
  match l with
  | [] => Normal []
  | x :: l' => cbind (f x) (fun y => cbind (cmap f l') (fun ys => Normal (y :: ys)))
  end.

(** ** Regular expressions (JavaScript syntax, no flags) *)

Inductive regex :=
| REps
| RChar (c : ascii)
| RDot
| RClass (neg : bool) (ranges : list (ascii * ascii))
| RBol
| REol
| RCat (r1 r2 : regex)
| RAlt (r1 r2 : regex)
| RStar (r : regex)
| RPlus (r : regex)
| ROpt (r : regex)
| RGroup (r : regex).

Definition is_alnum (c : ascii) : bool :=
  let n := nat_of_ascii c in
  ((48 <=? n) && (n <=? 57) || (65 <=? n) && (n <=? 90)
   || (97 <=? n) && (n <=? 122))%nat.

(** Character classes [[...]]: atoms, ranges [a-b], identity escapes. *)
Inductive catom := CA (c : ascii) (rest : string) | CAEnd (rest : string) | CAErr | CAUnsup.

Definition class_atom (s : string) : catom :=
  match s with
  | EmptyString => CAErr                      (* unterminated class *)
  | String c rest =>
      if (c =? "]")%char then CAEnd rest
      else if (c =? "\")%char then
        match rest with
        | EmptyString => CAErr
        | String d rest' => if is_alnum d then CAUnsup else CA d rest'
        end
      else CA c rest
  end.

Inductive cres := COk (rs : list (ascii * ascii)) (rest : string) | CErr | CUnsup.

Definition ccons (r : ascii * ascii) (c : cres) : cres :=
  match c with COk rs rest => COk (r :: rs) rest | e => e end.

Fixpoint class_ranges (n : nat) (s : string) : cres :=
  match n with
  | O => CUnsup
  | S n =>
    match class_atom s with
    | CAErr => CErr
    | CAUnsup => CUnsup
    | CAEnd rest => COk [] rest
    | CA a s1 =>
        match s1 with
        | String m s2 =>
            if (m =? "-")%char then
              match class_atom s2 with
              | CA b s3 =>
                  if (nat_of_ascii b <? nat_of_ascii a)%nat then CErr   (* range out of order *)
                  else ccons (a, b) (class_ranges n s3)
              | CAEnd _ => ccons (a, a) (class_ranges n s1)
              | CAErr => CErr
              | CAUnsup => CUnsup
              end
            else ccons (a, a) (class_ranges n s1)
        | EmptyString => ccons (a, a) (class_ranges n s1)
        end
    end
  end.

Inductive pres := POk (r : regex) (rest : string) | PErr | PUnsup.

Definition parse_class (s : string) : pres :=
  let '(neg, s) := match s with
                   | String c rest => if (c =? "^")%char then (true, rest) else (false, s)
                   | EmptyString => (false, s)
                   end in
  match class_ranges (S (String.length s)) s with
  | COk rs rest => POk (RClass neg rs) rest
  | CErr => PErr
  | CUnsup => PUnsup
  end.

(** A lazy marker [?] after a quantifier does not change what [test] finds. *)
Definition skip_lazy (s : string) : string :=
  match s with
  | String c rest => if (c =? "?")%char then rest else s
  | EmptyString => s
  end.

Definition parse_quantifier (a : regex) (s : string) : pres :=
  match s with
  | String c rest =>
      if (c =? "*")%char then POk (RStar a) (skip_lazy rest)
      else if (c =? "+")%char then POk (RPlus a) (skip_lazy rest)
      else if (c =? "?")%char then POk (ROpt a) (skip_lazy rest)
      else if (c =? "{")%char then PUnsup                 (* braced quantifiers *)
      else POk a s
  | EmptyString => POk a s
  end.

Fixpoint parse_disj (n : nat) (s : string) {struct n} : pres :=
  match n with
  | O => PUnsup
  | S n =>
    match parse_alt n s with
    | POk a (String c rest) =>
        if (c =? "|")%char then
          match parse_disj n rest with
          | POk b rest' => POk (RAlt a b) rest'
          | e => e
          end
        else POk a (String c rest)
    | r => r
    end
  end
with parse_alt (n : nat) (s : string) {struct n} : pres :=
  match n with
  | O => PUnsup
  | S n =>
    match s with
    | EmptyString => POk REps s
    | String c _ =>
        if (c =? "|")%char || (c =? ")")%char then POk REps s
        else
          match parse_term n s with
          | POk t rest =>
              match parse_alt n rest with
              | POk a rest' => POk (RCat t a) rest'
              | e => e
              end
          | e => e
          end
    end
  end
with parse_term (n : nat) (s : string) {struct n} : pres :=
  match n with
  | O => PUnsup
  | S n =>
    match s with
    | String c rest =>
        if (c =? "^")%char then POk RBol rest
        else if (c =? "$")%char then POk REol rest
        else
          match parse_atom n s with
          | POk a rest => parse_quantifier a rest
          | e => e
          end
    | EmptyString => PErr
    end
  end
with parse_atom (n : nat) (s : string) {struct n} : pres :=
  match n with
  | O => PUnsup
  | S n =>
    match s with
    | EmptyString => PErr
    | String c rest =>
        if (c =? "(")%char then
          match rest with
          | String d _ =>
              if (d =? "?")%char then PUnsup                (* (?: (?= (?! (?< *)
              else
                match parse_disj n rest with
                | POk d (String e rest') =>
                    if (e =? ")")%char then POk (RGroup d) rest' else PErr
                | POk _ EmptyString => PErr          (* unterminated group *)
                | e => e
                end
          | EmptyString => PErr
          end
        else if (c =? "[")%char then parse_class rest
        else if (c =? "\")%char then
          match rest with
          | EmptyString => PErr                      (* \ at end of pattern *)
          | String d rest' => if is_alnum d then PUnsup else POk (RChar d) rest'
          end
        else if (c =? ".")%char then POk RDot rest
        else if (c =? "*")%char || (c =? "+")%char || (c =? "?")%char || (c =? ")")%char then PErr
        else if (c =? "{")%char then PUnsup
        else POk (RChar c) rest                      (* includes ] and } (Annex B) *)
    end
  end.

(** [new RegExp(pattern)]. *)
Definition RegExp_new (pattern : string) : completion regex :=
  match parse_disj (4 * String.length pattern + 5) pattern with
  | POk r EmptyString => Normal r
  | POk _ _ => Throw SyntaxError                     (* unmatched ) *)
  | PErr => Throw SyntaxError
  | PUnsup => OutOfModel
  end.

(** ** Matching: the end states [(index, remaining input)] reachable from a start *)

Definition in_ranges (c : ascii) (rs : list (ascii * ascii)) : bool :=
  existsb (fun '(lo, hi) =>
             ((nat_of_ascii lo <=? nat_of_ascii c) && (nat_of_ascii c <=? nat_of_ascii hi))%nat) rs.

Definition is_line_terminator (c : ascii) : bool := (c =? "010")%char || (c =? "013")%char.

(** Iterations after the required ones must consume input (the empty check of
    RepeatMatcher). *)
Fixpoint star_from (f : nat -> string -> list (nat * string)) (fuel : nat)
    (i : nat) (s : string) : list (nat * string) :=
  (i, s) ::
  match fuel with
  | O => []
  | S fuel =>
      flat_map (fun '(k, s') =>
                  if (String.length s' <? String.length s)%nat then star_from f fuel k s' else [])
               (f i s)
  end.

Fixpoint ends (r : regex) (i : nat) (s : string) : list (nat * string) :=
  match r with
  | REps => [(i, s)]
  | RChar c =>
      match s with String d s' => if (c =? d)%char then [(S i, s')] else [] | EmptyString => [] end
  | RDot =>
      match s with
      | String d s' => if is_line_terminator d then [] else [(S i, s')]
      | EmptyString => []
      end
  | RClass neg rs =>
      match s with
      | String d s' => if xorb neg (in_ranges d rs) then [(S i, s')] else []
      | EmptyString => []
      end
  | RBol => if (i =? 0)%nat then [(i, s)] else []
  | REol => match s with EmptyString => [(i, s)] | _ => [] end
  | RCat r1 r2 => flat_map (fun '(k, s') => ends r2 k s') (ends r1 i s)
  | RAlt r1 r2 => ends r1 i s ++ ends r2 i s
  | RStar r => star_from (ends r) (String.length s) i s
  | RPlus r => flat_map (fun '(k, s') => star_from (ends r) (String.length s') k s') (ends r i s)
  | ROpt r => ends r i s ++ [(i, s)]
  | RGroup r => ends r i s
  end.

(** [re.test(path)] without the g flag: try every start index 0..length. *)
Fixpoint test_from (r : regex) (i : nat) (s : string) : bool :=
  match ends r i s with
  | _ :: _ => true
  | [] => match s with EmptyString => false | String _ s' => test_from r (S i) s' end
  end.

Definition re_test (r : regex) (path : string) : bool := test_from r 0 path.

(** ** FileGlob (lines 29-76) *)

(** The conversion loop: [glob[i]] is the head of the remaining glob, and
    [glob[i + 1]], [glob[i + 2]] are the next two characters ([undefined]
    past the end, which equals neither ['*'] nor ['/']). *)
Fixpoint glob_to_pattern (glob : string) (pattern : string) : string :=
  match glob with
  | EmptyString => pattern
  | String ch rest =>
      if (ch =? "*")%char then
        match rest with
        | String c1 (String c2 rest') =>
            if (c1 =? "*")%char && (c2 =? "/")%char
            then glob_to_pattern rest' (pattern ++ "([^/]*/)*")     (* i += 2 *)
            else glob_to_pattern rest (pattern ++ "[^/]*")
        | _ => glob_to_pattern rest (pattern ++ "[^/]*")
        end
      else if (ch =? "?")%char then glob_to_pattern rest (pattern ++ "[^/]")
      else if (ch =? ".")%char then glob_to_pattern rest (pattern ++ "\.")
      else glob_to_pattern rest (pattern ++ String ch EmptyString)
  end.

Definition FileGlob_pattern (glob : string) : string :=
  "^" ++ glob_to_pattern glob "" ++ "$".

Record fileglob := { fg_re : regex }.

(** [new FileGlob(glob)] for a string [glob]. *)
Definition new_FileGlob (glob : string) : completion fileglob :=
  cbind (RegExp_new (FileGlob_pattern glob)) (fun re => Normal {| fg_re := re |}).

Definition fg_matches (fg : fileglob) (path : string) : bool := re_test (fg_re fg) path.

Definition fg_filter (fg : fileglob) (list : Datatypes.list string) : Datatypes.list string :=
  List.filter (fun path => fg_matches fg path) list.

(** [make(glob)] (line 165). *)
Definition make (glob : string) : completion fileglob := new_FileGlob glob.

(** ** Sets (lines 17-24, 81-156) *)

Inductive setv :=
| EmptySet                                        (* new Set() *)
| FileGlobSet (fglobs : list fileglob)
| Compliment (includes excludes : setv)
| Union (sets : list setv).

Fixpoint set_matches (s : setv) (path : string) : bool :=
  match s with
  | EmptySet => false                             (* Set.prototype.matches *)
  | FileGlobSet fglobs => existsb (fun fglob => fg_matches fglob path) fglobs
  | Compliment includes excludes =>
      set_matches includes path && negb (set_matches excludes path)
  | Union sets =>
      (fix some (l : list setv) : bool :=
         match l with [] => false | set :: l' => set_matches set path || some l' end) sets
  end.

Definition set_filter (s : setv) (list : Datatypes.list string) : Datatypes.list string :=
  match s with
  | EmptySet => []                                (* Set.prototype.filter *)
  | _ => List.filter (fun path => set_matches s path) list
  end.

(** ** Values reaching the factories, and [instanceof Set] *)

(** Arguments of [makeSet]: [undefined], strings, objects built by this
    module, and arrays. *)
Inductive jsval :=
| VUndef
| VStr (s : string)
| VSet (s : setv)
| VGlob (fg : fileglob)
| VArr (xs : list jsval).

(** The prototype objects of the module: [Set.prototype], [Object.prototype],
    [EmptySet] (the prototype of [FileGlobSet] and [Compliment]), the
    [new Set()] installed as [Union.prototype], [FileGlob.prototype] and
    [Array.prototype]. *)
Inductive jsproto :=
| SetPrototype | ObjectPrototype | EmptySetObject | UnionPrototype
| FileGlobPrototype | ArrayPrototype.

Definition jsproto_eqb (p q : jsproto) : bool :=
  match p, q with
  | SetPrototype, SetPrototype | ObjectPrototype, ObjectPrototype
  | EmptySetObject, EmptySetObject | UnionPrototype, UnionPrototype
  | FileGlobPrototype, FileGlobPrototype | ArrayPrototype, ArrayPrototype => true
  | _, _ => false
  end.

Definition proto_parent (p : jsproto) : option jsproto :=
  match p with
  | SetPrototype => Some ObjectPrototype
  | ObjectPrototype => None
  | EmptySetObject => Some SetPrototype
  | UnionPrototype => Some SetPrototype
  | FileGlobPrototype => Some ObjectPrototype
  | ArrayPrototype => Some ObjectPrototype
  end.

(** The [[Prototype]] of a value ([None] for primitives). *)
Definition proto_of (v : jsval) : option jsproto :=
  match v with
  | VUndef | VStr _ => None
  | VSet EmptySet => Some SetPrototype
  | VSet (FileGlobSet _) => Some EmptySetObject   (* FileGlobSet.prototype = EmptySet *)
  | VSet (Compliment _ _) => Some EmptySetObject  (* Compliment.prototype = EmptySet *)
  | VSet (Union _) => Some UnionPrototype         (* Union.prototype = new Set() *)
  | VGlob _ => Some FileGlobPrototype             (* default FileGlob.prototype *)
  | VArr _ => Some ArrayPrototype
  end.

(** OrdinaryHasInstance: walk the chain looking for [target].  Chains here
    have at most three links, so the fuel [4] is never exhausted. *)
Fixpoint chain_has (fuel : nat) (target : jsproto) (p : option jsproto) : bool :=
  match fuel, p with
  | _, None => false
  | O, Some _ => false
  | S fuel, Some q => jsproto_eqb q target || chain_has fuel target (proto_parent q)
  end.

Definition isaSet (x : jsval) : bool := chain_has 4 SetPrototype (proto_of x).

(** The characters [new FileGlob(glob)] iterates over: [glob.length] of an
    object built here is [undefined] and [0 < undefined] is false, so the
    loop body never runs; reading [length] of [undefined] throws.  An array
    used as a glob (indexed element by element, compared with [==]) is not
    modelled. *)
Definition glob_chars (glob : jsval) : completion string :=
  match glob with
  | VStr s => Normal s
  | VSet _ | VGlob _ => Normal ""
  | VUndef => Throw TypeError
  | VArr _ => OutOfModel
  end.

Definition new_FileGlob_v (glob : jsval) : completion fileglob :=
  cbind (glob_chars glob) new_FileGlob.

(** [makeSet] (lines 172-183). *)
Definition makeSet (globs : jsval) : completion setv :=
  match globs with
  | VUndef => Normal EmptySet
  | _ =>
    if isaSet globs then
      match globs with
      | VSet s => Normal s
      | _ => OutOfModel                           (* no other value is a Set *)
      end
    else
      let globs := match globs with VArr xs => xs | _ => [globs] end in
      cbind (cmap new_FileGlob_v globs) (fun fglobs => Normal (FileGlobSet fglobs))
  end.

(** [makeCompliment] (lines 188-190). *)
Definition makeCompliment (includes excludes : jsval) : completion setv :=
  cbind (makeSet includes) (fun i =>
  cbind (makeSet excludes) (fun e => Normal (Compliment i e))).

(** [makeUnion] (lines 195-201): [arguments] as a list. *)
Definition makeUnion (arguments : list jsval) : completion setv :=
  cbind (cmap makeSet arguments) (fun sets => Normal (Union sets)).

(** [make(glob).matches(path)], when [make(glob)] returns. *)
Definition glob_matches (glob path : string) : completion bool :=
  cbind (make glob) (fun fg => Normal (fg_matches fg path)).

(** * Proofs *)

(** ** String facts *)

Lemma sapp_assoc (a b c : string) : (a ++ b) ++ c = a ++ (b ++ c).
Proof. induction a; simpl; congruence. Qed.

Lemma sapp_nil_r (a : string) : a ++ "" = a.
Proof. induction a; simpl; congruence. Qed.

Lemma slength_app (a b : string) : String.length (a ++ b) = String.length a + String.length b.
Proof. induction a; simpl; auto. Qed.

(** ** The glob as a list of tokens

    [tokenize] follows the loop of [glob_to_pattern]; [tok_frag] is what
    each branch appends to [pattern]. *)

Inductive gtok := TSegs | TStar | TQuest | TDot | TLit (c : ascii).

Fixpoint tokenize (glob : string) : list gtok :=
  match glob with
  | EmptyString => []
  | String ch rest =>
      if (ch =? "*")%char then
        match rest with
        | String c1 (String c2 rest') =>
            if (c1 =? "*")%char && (c2 =? "/")%char
            then TSegs :: tokenize rest'
            else TStar :: tokenize rest
        | _ => TStar :: tokenize rest
        end
      else if (ch =? "?")%char then TQuest :: tokenize rest
      else if (ch =? ".")%char then TDot :: tokenize rest
      else TLit ch :: tokenize rest
  end.

Definition tok_frag (t : gtok) : string :=
  match t with
  | TSegs => "([^/]*/)*"
  | TStar => "[^/]*"
  | TQuest => "[^/]"
  | TDot => "\."
  | TLit c => String c EmptyString
  end.

Fixpoint frags (ts : list gtok) : string :=
  match ts with [] => "" | t :: ts => tok_frag t ++ frags ts end.

Lemma glob_to_pattern_cons ch rest pattern :
  glob_to_pattern (String ch rest) pattern =
  if (ch =? "*")%char then
    match rest with
    | String c1 (String c2 rest') =>
        if (c1 =? "*")%char && (c2 =? "/")%char
        then glob_to_pattern rest' (pattern ++ "([^/]*/)*")
        else glob_to_pattern rest (pattern ++ "[^/]*")
    | _ => glob_to_pattern rest (pattern ++ "[^/]*")
    end
  else if (ch =? "?")%char then glob_to_pattern rest (pattern ++ "[^/]")
  else if (ch =? ".")%char then glob_to_pattern rest (pattern ++ "\.")
  else glob_to_pattern rest (pattern ++ String ch EmptyString).
Proof. reflexivity. Qed.

Lemma tokenize_cons ch rest :
  tokenize (String ch rest) =
  if (ch =? "*")%char then
    match rest with
    | String c1 (String c2 rest') =>
        if (c1 =? "*")%char && (c2 =? "/")%char
        then TSegs :: tokenize rest'
        else TStar :: tokenize rest
    | _ => TStar :: tokenize rest
    end
  else if (ch =? "?")%char then TQuest :: tokenize rest
  else if (ch =? ".")%char then TDot :: tokenize rest
  else TLit ch :: tokenize rest.
Proof. reflexivity. Qed.

Ltac close_frags IH :=
  rewrite IH by (simpl in *; lia); cbn [frags tok_frag]; rewrite ?sapp_assoc; reflexivity.

Lemma glob_to_pattern_frags : forall n glob acc, String.length glob <= n ->
  glob_to_pattern glob acc = acc ++ frags (tokenize glob).
Proof.
  induction n as [|n IH]; intros glob acc Hl.
  - destruct glob; simpl in *; [rewrite sapp_nil_r; reflexivity | lia].
  - destruct glob as [|ch rest]; [simpl; rewrite sapp_nil_r; reflexivity|].
    rewrite glob_to_pattern_cons, tokenize_cons.
    destruct (ch =? "*")%char.
    + destruct rest as [|c1 [|c2 rest']]; [close_frags IH | close_frags IH |].
      destruct ((c1 =? "*")%char && (c2 =? "/")%char); close_frags IH.
    + destruct (ch =? "?")%char; [|destruct (ch =? ".")%char]; close_frags IH.
Qed.

Lemma FileGlob_pattern_frags (glob : string) :
  FileGlob_pattern glob = "^" ++ frags (tokenize glob) ++ "$".
Proof. unfold FileGlob_pattern. rewrite (glob_to_pattern_frags (String.length glob)) by lia. reflexivity. Qed.

(** ** Globs without regular-expression metacharacters

    Characters other than [*], [?] and [.] are copied into the regular
    expression as they are.  A glob is [safe_glob] when none of them is one
    of the characters that the [RegExp] syntax treats specially there. *)

Definition safe_char (c : ascii) : bool :=
  negb (c =? "\")%char && negb (c =? "^")%char && negb (c =? "$")%char
  && negb (c =? "|")%char && negb (c =? "+")%char && negb (c =? "(")%char
  && negb (c =? ")")%char && negb (c =? "[")%char && negb (c =? "{")%char.

Fixpoint safe_glob (glob : string) : bool :=
  match glob with
  | EmptyString => true
  | String c rest => safe_char c && safe_glob rest
  end.

Definition tok_ok (t : gtok) : bool :=
  match t with
  | TLit c => safe_char c && negb (c =? "*")%char && negb (c =? "?")%char
              && negb (c =? ".")%char
  | _ => true
  end.

Lemma safe_glob_app (a b : string) : safe_glob (a ++ b) = safe_glob a && safe_glob b.
Proof. induction a; simpl; [reflexivity|]. rewrite IHa, andb_assoc. reflexivity. Qed.

Lemma tokenize_ok : forall n glob, String.length glob <= n -> safe_glob glob = true ->
  forallb tok_ok (tokenize glob) = true.
Proof.
  induction n as [|n IH]; intros glob Hl Hs.
  - destruct glob; simpl in *; [reflexivity | lia].
  - destruct glob as [|ch rest]; [reflexivity|].
    simpl in Hs. apply andb_prop in Hs as [Hc Hs].
    rewrite tokenize_cons.
    destruct (ch =? "*")%char eqn:Estar.
    + destruct rest as [|c1 [|c2 rest']]; simpl in *.
      * reflexivity.
      * apply andb_prop in Hs as [Hc1 _].
        destruct (c1 =? "*")%char eqn:E1; [reflexivity|].
        destruct (c1 =? "?")%char eqn:E2; [reflexivity|].
        destruct (c1 =? ".")%char eqn:E3; [reflexivity|].
        simpl. rewrite Hc1, E1, E2, E3. reflexivity.
      * destruct ((c1 =? "*")%char && (c2 =? "/")%char).
        -- apply IH; [lia|]. rewrite !andb_true_iff in Hs. tauto.
        -- apply (IH (String c1 (String c2 rest'))); [simpl in *; lia | exact Hs].
    + cbv beta iota. assert (Hr : forallb tok_ok (tokenize rest) = true) by (apply IH; simpl in *; [lia | exact Hs]).
      destruct (ch =? "?")%char eqn:Eq; [simpl; exact Hr|].
      destruct (ch =? ".")%char eqn:Edot; [simpl; exact Hr|].
      simpl. rewrite Hc, Estar, Eq, Edot, Hr. reflexivity.
Qed.

(** ** What [new RegExp] builds from a safe glob *)

Definition not_slash : regex := RClass true [("/"%char, "/"%char)].

(** [([^/]*/)] *)
Definition seg_re : regex := RGroup (RCat (RStar not_slash) (RCat (RChar "/") REps)).

Definition tok_re (t : gtok) : regex :=
  match t with
  | TSegs => RStar seg_re
  | TStar => RStar not_slash
  | TQuest => not_slash
  | TDot => RChar "."
  | TLit c => RChar c
  end.

Fixpoint chain (ts : list gtok) (tail : regex) : regex :=
  match ts with [] => tail | t :: ts => RCat (tok_re t) (chain ts tail) end.

Definition glob_re (glob : string) : regex :=
  RCat RBol (chain (tokenize glob) (RCat REol REps)).

Definition no_quant (s : string) : bool :=
  match s with
  | String c _ => negb (c =? "*")%char && negb (c =? "+")%char && negb (c =? "?")%char
                  && negb (c =? "{")%char
  | EmptyString => true
  end.

Ltac split_bool_facts :=
  repeat match goal with
  | H : _ && _ = true |- _ => apply andb_prop in H; destruct H
  | H : negb _ = true |- _ => apply negb_true_iff in H
  end.

Ltac use_false_facts :=
  repeat match goal with
  | H : ?x = false |- context [?x] => rewrite H
  end.

Lemma parse_quantifier_none a s : no_quant s = true -> parse_quantifier a s = POk a s.
Proof.
  destruct s as [|c s]; [reflexivity|]. simpl. intro H. split_bool_facts.
  use_false_facts. reflexivity.
Qed.

Lemma skip_lazy_none s : no_quant s = true -> skip_lazy s = s.
Proof.
  destruct s as [|c s]; [reflexivity|]. simpl. intro H. split_bool_facts.
  use_false_facts. reflexivity.
Qed.

Lemma parse_term_tok t rest m : tok_ok t = true -> no_quant rest = true -> 8 <= m ->
  parse_term m (tok_frag t ++ rest) = POk (tok_re t) rest.
Proof.
  intros Ht Hq Hm.
  do 8 (destruct m as [|m]; [lia|]).
  destruct t as [| | | |c]; simpl.
  - rewrite skip_lazy_none by exact Hq. reflexivity.
  - rewrite skip_lazy_none by exact Hq. reflexivity.
  - apply parse_quantifier_none, Hq.
  - apply parse_quantifier_none, Hq.
  - simpl in Ht. unfold safe_char in Ht. split_bool_facts.
    use_false_facts. simpl. use_false_facts. apply parse_quantifier_none, Hq.
Qed.

Lemma frags_no_quant ts : forallb tok_ok ts = true -> no_quant (frags ts ++ "$") = true.
Proof.
  destruct ts as [|[| | | |c] ts]; simpl; try reflexivity.
  intro H. unfold safe_char in H. split_bool_facts. use_false_facts. reflexivity.
Qed.

Lemma frags_length ts : List.length ts <= String.length (frags ts).
Proof.
  induction ts as [|t ts IH]; simpl; [lia|].
  rewrite slength_app. destruct t; simpl; lia.
Qed.

Lemma parse_alt_chain : forall ts m, forallb tok_ok ts = true -> List.length ts + 10 <= m ->
  parse_alt m (frags ts ++ "$") = POk (chain ts (RCat REol REps)) "".
Proof.
  induction ts as [|t ts IH]; intros m Hok Hm.
  - do 10 (destruct m as [|m]; [simpl in Hm; lia|]). reflexivity.
  - simpl in Hok. apply andb_prop in Hok as [Ht Hts].
    destruct m as [|m]; [simpl in Hm; lia|].
    assert (Hhead : exists c s', tok_frag t ++ (frags ts ++ "$") = String c s'
                    /\ ((c =? "|")%char || (c =? ")")%char) = false).
    { destruct t as [| | | |c]; simpl; eauto.
      simpl in Ht. unfold safe_char in Ht. split_bool_facts.
      exists c, (frags ts ++ "$"). split; [reflexivity|]. use_false_facts. reflexivity. }
    destruct Hhead as (c & s' & Heq & Hc).
    change (frags (t :: ts)) with (tok_frag t ++ frags ts). rewrite sapp_assoc.
    cbn [parse_alt]. rewrite Heq. cbv beta iota. rewrite Hc. rewrite <- Heq.
    rewrite parse_term_tok by (auto using frags_no_quant; simpl in Hm; lia).
    rewrite IH by (auto; simpl in Hm; lia). reflexivity.
Qed.

Lemma parse_disj_S n s : parse_disj (S n) s =
  match parse_alt n s with
  | POk a (String c rest) =>
      if (c =? "|")%char then
        match parse_disj n rest with POk b rest' => POk (RAlt a b) rest' | e => e end
      else POk a (String c rest)
  | r => r
  end.
Proof. reflexivity. Qed.

Lemma parse_alt_S n c s : parse_alt (S n) (String c s) =
  if (c =? "|")%char || (c =? ")")%char then POk REps (String c s)
  else
    match parse_term n (String c s) with
    | POk t rest => match parse_alt n rest with POk a rest' => POk (RCat t a) rest' | e => e end
    | e => e
    end.
Proof. reflexivity. Qed.

Lemma parse_term_bol n s : parse_term (S n) (String "^" s) = POk RBol s.
Proof. reflexivity. Qed.

Lemma RegExp_new_glob glob : safe_glob glob = true ->
  RegExp_new (FileGlob_pattern glob) = Normal (glob_re glob).
Proof.
  intro Hs. pose proof (tokenize_ok _ glob (le_n _) Hs) as Hok.
  rewrite FileGlob_pattern_frags. unfold RegExp_new.
  pose proof (frags_length (tokenize glob)) as Hfl.
  remember (4 * String.length ("^" ++ frags (tokenize glob) ++ "$") + 5) as F eqn:HF.
  assert (HF' : List.length (tokenize glob) + 13 <= F)
    by (subst F; simpl; rewrite slength_app; simpl; lia).
  destruct F as [|[|[|F]]]; try lia.
  change ("^" ++ frags (tokenize glob) ++ "$") with (String "^" (frags (tokenize glob) ++ "$")).
  rewrite parse_disj_S, parse_alt_S.
  replace (("^" =? "|")%char || ("^" =? ")")%char) with false by reflexivity.
  cbv beta iota. rewrite parse_term_bol. cbv beta iota.
  rewrite parse_alt_chain by (auto; lia). reflexivity.
Qed.

(** ** The matcher on the regular expressions of safe globs *)

Inductive star_rel (f : nat -> string -> list (nat * string))
  : nat -> string -> nat -> string -> Prop :=
| star_refl i s : star_rel f i s i s
| star_step i s k s1 j s' :
    In (k, s1) (f i s) -> String.length s1 < String.length s ->
    star_rel f k s1 j s' -> star_rel f i s j s'.

Lemma star_from_spec f : forall n i s j s', String.length s <= n ->
  In (j, s') (star_from f n i s) <-> star_rel f i s j s'.
Proof.
  induction n as [|n IH]; intros i s j s' Hl; simpl.
  - split.
    + intros [H|[]]. injection H as <- <-. constructor.
    + intro H. inversion H as [|? ? k s1 ? ? Hin Hlt Hrest]; subst; [left; reflexivity | lia].
  - split.
    + intros [H|H].
      * injection H as <- <-. constructor.
      * apply in_flat_map in H as [[k s1] [Hin Hk]].
        destruct (String.length s1 <? String.length s)%nat eqn:E; [|destruct Hk].
        apply Nat.ltb_lt in E. eapply star_step; eauto. apply IH; [lia | exact Hk].
    + intro H. inversion H as [|? ? k s1 ? ? Hin Hlt Hrest]; subst; [left; reflexivity|].
      right. apply in_flat_map. exists (k, s1). split; [exact Hin|].
      rewrite (proj2 (Nat.ltb_lt _ _) Hlt). apply IH; [lia | exact Hrest].
Qed.

Lemma in_ends_cat r1 r2 i s k s' :
  In (k, s') (ends (RCat r1 r2) i s) <->
  exists m sm, In (m, sm) (ends r1 i s) /\ In (k, s') (ends r2 m sm).
Proof.
  simpl. rewrite in_flat_map. split.
  - intros [[m sm] [H1 H2]]. eauto.
  - intros (m & sm & H1 & H2). exists (m, sm). auto.
Qed.

Lemma in_ends_star r i s j s' :
  In (j, s') (ends (RStar r) i s) <-> star_rel (ends r) i s j s'.
Proof. apply star_from_spec. lia. Qed.

Lemma in_ends_eps i s k s1 : In (k, s1) (ends REps i s) <-> k = i /\ s1 = s.
Proof. simpl. split; [intros [H|[]]; injection H; auto | intros [-> ->]; auto]. Qed.

Lemma in_ends_char c i s k s1 : In (k, s1) (ends (RChar c) i s) <-> s = String c s1 /\ k = S i.
Proof.
  destruct s as [|d s]; simpl; [split; [intros []| intros [H _]; discriminate]|].
  destruct (Ascii.eqb_spec c d) as [<-|Hne]; simpl.
  - split; [intros [H|[]]; injection H as <- <-; auto | intros [H ->]; injection H as ->; auto].
  - split; [intros []| intros [H _]; injection H as -> _; contradiction].
Qed.

Lemma in_ranges_slash d : in_ranges d [("/"%char, "/"%char)] = (d =? "/")%char.
Proof.
  unfold in_ranges, existsb. cbv beta iota. rewrite orb_false_r.
  destruct (Ascii.eqb_spec d "/") as [->|Hne]; [reflexivity|].
  apply Bool.not_true_iff_false. intro H. apply andb_prop in H as [H1 H2].
  apply Nat.leb_le in H1; apply Nat.leb_le in H2. apply Hne.
  change (nat_of_ascii "/") with 47 in H1, H2.
  rewrite <- (ascii_nat_embedding d). replace (nat_of_ascii d) with 47 by lia.
  reflexivity.
Qed.

Lemma in_ends_not_slash i s k s1 :
  In (k, s1) (ends not_slash i s) <->
  exists c, s = String c s1 /\ (c =? "/")%char = false /\ k = S i.
Proof.
  destruct s as [|c s]; cbn [ends not_slash].
  - split; [intros [] | intros (? & H & _); discriminate].
  - rewrite in_ranges_slash. destruct (c =? "/")%char eqn:E; simpl.
    + split; [intros [] | intros (d & H & Hd & _); injection H as -> _; congruence].
    + split.
      * intros [H|[]]. injection H as <- <-. eauto.
      * intros (d & H & _ & ->). injection H as -> ->. auto.
Qed.

Fixpoint no_slash (w : string) : bool :=
  match w with
  | EmptyString => true
  | String c w' => negb (c =? "/")%char && no_slash w'
  end.

Lemma no_slash_app a b : no_slash (a ++ b) = no_slash a && no_slash b.
Proof. induction a; simpl; [reflexivity|]. rewrite IHa, andb_assoc. reflexivity. Qed.

Lemma star_not_slash i s j s' :
  star_rel (ends not_slash) i s j s' <->
  exists w, s = w ++ s' /\ no_slash w = true /\ j = i + String.length w.
Proof.
  split.
  - induction 1 as [i s|i s k s1 j s' Hin Hlt Hst IH].
    + exists ""; simpl; repeat split; lia.
    + apply in_ends_not_slash in Hin as (c & -> & Hc & ->).
      destruct IH as (w & -> & Hw & ->). exists (String c w). simpl.
      rewrite Hc, Hw. repeat split; lia.
  - intros (w & -> & Hw & ->). revert i Hw.
    induction w as [|c w IH]; intros i Hw.
    + simpl. rewrite Nat.add_0_r. constructor.
    + simpl in Hw. apply andb_prop in Hw as [Hc Hw]. apply negb_true_iff in Hc.
      apply (star_step _ _ _ (S i) (w ++ s')).
      * apply in_ends_not_slash. exists c. auto.
      * simpl. lia.
      * replace (i + String.length (String c w)) with (S i + String.length w) by (simpl; lia).
        apply IH, Hw.
Qed.

Fixpoint seg_concat (us : list string) : string :=
  match us with
  | [] => ""
  | u :: us => u ++ String "/" (seg_concat us)
  end.

Lemma in_ends_seg i s k s1 :
  In (k, s1) (ends seg_re i s) <->
  exists u, s = u ++ String "/" s1 /\ no_slash u = true /\ k = S (i + String.length u).
Proof.
  unfold seg_re. change (ends (RGroup ?r) i s) with (ends r i s).
  rewrite in_ends_cat. split.
  - intros (m & sm & H1 & H2). apply in_ends_star, star_not_slash in H1 as (u & -> & Hu & ->).
    apply in_ends_cat in H2 as (m' & sm' & H3 & H4).
    apply in_ends_char in H3 as [-> ->]. apply in_ends_eps in H4 as [-> ->].
    exists u. auto.
  - intros (u & -> & Hu & ->). exists (i + String.length u), (String "/" s1). split.
    + apply in_ends_star, star_not_slash. eauto.
    + apply in_ends_cat. exists (S (i + String.length u)), s1. split.
      * apply in_ends_char. auto.
      * apply in_ends_eps. auto.
Qed.

Lemma star_segs i s j s' :
  star_rel (ends seg_re) i s j s' <->
  exists us, Forall (fun u => no_slash u = true) us /\ s = seg_concat us ++ s'
             /\ j = i + String.length (seg_concat us).
Proof.
  split.
  - induction 1 as [i s|i s k s1 j s' Hin Hlt Hst IH].
    + exists []; simpl; repeat split; auto; lia.
    + apply in_ends_seg in Hin as (u & -> & Hu & ->).
      destruct IH as (us & Hus & -> & ->). exists (u :: us). simpl.
      rewrite sapp_assoc, slength_app. simpl. repeat split; auto; lia.
  - intros (us & Hus & -> & ->). revert i. induction Hus as [|u us Hu Hus IH]; intro i.
    + cbn [seg_concat String.append String.length]. rewrite Nat.add_0_r. constructor.
    + cbn [seg_concat]. rewrite sapp_assoc.
      apply (star_step _ _ _ (S (i + String.length u)) (seg_concat us ++ s')).
      * apply in_ends_seg. exists u. split; [reflexivity | auto].
      * rewrite !slength_app. simpl. lia.
      * rewrite slength_app. cbn [String.length].
        replace (i + (String.length u + S (String.length (seg_concat us))))
          with (S (i + String.length u) + String.length (seg_concat us)) by lia.
        apply IH.
Qed.

(** ** The language of a token list *)

Definition tok_match (t : gtok) (w : string) : Prop :=
  match t with
  | TSegs => exists us, Forall (fun u => no_slash u = true) us /\ w = seg_concat us
  | TStar => no_slash w = true
  | TQuest => exists c, w = String c "" /\ (c =? "/")%char = false
  | TDot => w = "."
  | TLit c => w = String c ""
  end.

Fixpoint tlang (ts : list gtok) (w : string) : Prop :=
  match ts with
  | [] => w = ""
  | t :: ts => exists w1 w2, w = w1 ++ w2 /\ tok_match t w1 /\ tlang ts w2
  end.

Lemma in_ends_tok t i s k s1 :
  In (k, s1) (ends (tok_re t) i s) <->
  exists w, s = w ++ s1 /\ k = i + String.length w /\ tok_match t w.
Proof.
  destruct t as [| | | |c]; cbn [tok_re tok_match].
  - rewrite in_ends_star, star_segs. split.
    + intros (us & Hus & -> & ->). exists (seg_concat us). eauto.
    + intros (w & -> & -> & us & Hus & ->). exists us. auto.
  - rewrite in_ends_star, star_not_slash. split.
    + intros (w & -> & Hw & ->). exists w. auto.
    + intros (w & -> & -> & Hw). exists w. auto.
  - rewrite in_ends_not_slash. split.
    + intros (c & -> & Hc & ->). exists (String c ""). simpl. repeat split; [lia|]. eauto.
    + intros (w & -> & -> & c & -> & Hc). exists c. simpl. repeat split; auto; lia.
  - rewrite in_ends_char. split.
    + intros [-> ->]. exists ".". simpl. repeat split; lia.
    + intros (w & -> & -> & ->). simpl. split; [reflexivity | lia].
  - rewrite in_ends_char. split.
    + intros [-> ->]. exists (String c ""). simpl. repeat split; lia.
    + intros (w & -> & -> & ->). simpl. split; [reflexivity | lia].
Qed.

Lemma in_ends_chain ts tail : forall i s k s',
  In (k, s') (ends (chain ts tail) i s) <->
  exists w s1, s = w ++ s1 /\ tlang ts w /\ In (k, s') (ends tail (i + String.length w) s1).
Proof.
  induction ts as [|t ts IH]; intros i s k s'; cbn [chain tlang].
  - split.
    + intro H. exists "", s. simpl. rewrite Nat.add_0_r. auto.
    + intros (w & s1 & -> & -> & H). simpl in *. rewrite Nat.add_0_r in H. exact H.
  - rewrite in_ends_cat. split.
    + intros (m & sm & H1 & H2). apply in_ends_tok in H1 as (w1 & -> & -> & Hw1).
      apply IH in H2 as (w2 & s1 & -> & Hw2 & H).
      exists (w1 ++ w2), s1. rewrite sapp_assoc, slength_app, Nat.add_assoc.
      repeat split; eauto.
    + intros (w & s1 & -> & (w1 & w2 & -> & Hw1 & Hw2) & H).
      exists (i + String.length w1), (w2 ++ s1). split.
      * apply in_ends_tok. exists w1. rewrite sapp_assoc. auto.
      * apply IH. exists w2, s1. rewrite slength_app, Nat.add_assoc in H. auto.
Qed.

Lemma in_ends_end i s k s' : In (k, s') (ends (RCat REol REps) i s) <-> s = "" /\ k = i /\ s' = "".
Proof.
  rewrite in_ends_cat. destruct s as [|c s]; simpl.
  - split.
    + intros (m & sm & [H|[]] & [H'|[]]). injection H as <- <-. injection H' as <- <-. auto.
    + intros (_ & -> & ->). exists i, "". auto.
  - split; [intros (m & sm & [] & _) | intros [H _]; discriminate].
Qed.

Lemma test_from_bol x : forall i s, test_from (RCat RBol x) (S i) s = false.
Proof. intros i s. revert i. induction s as [|c s IH]; intro i; simpl; [reflexivity | apply IH]. Qed.

Lemma re_test_bol x p : re_test (RCat RBol x) p = true <-> exists y, In y (ends x 0 p).
Proof.
  unfold re_test. destruct p as [|c p]; cbn [test_from];
    change (ends (RCat RBol x) 0 ?s) with ((ends x 0 s ++ [])%list); rewrite app_nil_r;
    destruct (ends x 0 _) as [|y l]; simpl.
  - split; [discriminate | intros (? & [])].
  - split; [eauto | reflexivity].
  - rewrite test_from_bol. split; [discriminate | intros (? & [])].
  - split; [eauto | reflexivity].
Qed.

(** The regular expression of a safe glob accepts exactly [tlang]. *)
Lemma re_test_glob_re glob path :
  re_test (glob_re glob) path = true <-> tlang (tokenize glob) path.
Proof.
  unfold glob_re. rewrite re_test_bol. split.
  - intros ([k s'] & H). apply in_ends_chain in H as (w & s1 & -> & Hw & H).
    apply in_ends_end in H as (-> & _ & _). rewrite sapp_nil_r. exact Hw.
  - intro H. exists (String.length path, ""). apply in_ends_chain.
    exists path, "". rewrite sapp_nil_r. repeat split; auto. apply in_ends_end. auto.
Qed.

Lemma make_safe glob : safe_glob glob = true -> make glob = Normal {| fg_re := glob_re glob |}.
Proof. intro Hs. unfold make, new_FileGlob. rewrite RegExp_new_glob by exact Hs. reflexivity. Qed.

Lemma glob_matches_safe glob path : safe_glob glob = true ->
  glob_matches glob path = Normal (re_test (glob_re glob) path).
Proof. intro Hs. unfold glob_matches. rewrite make_safe by exact Hs. reflexivity. Qed.

Lemma glob_matches_tlang glob path : safe_glob glob = true ->
  (glob_matches glob path = Normal true <-> tlang (tokenize glob) path).
Proof.
  intro Hs. rewrite glob_matches_safe by exact Hs. rewrite <- re_test_glob_re.
  split; [intro H; injection H; auto | intros ->; reflexivity].
Qed.

(** ** Tokenizing a concatenation *)

Fixpoint ends_star (s : string) : bool :=
  match s with
  | EmptyString => false
  | String c EmptyString => (c =? "*")%char
  | String _ s' => ends_star s'
  end.

Definition starts_slash (s : string) : bool :=
  match s with String c _ => (c =? "/")%char | EmptyString => false end.

Definition starts_star_slash (s : string) : bool :=
  match s with
  | String c (String d _) => (c =? "*")%char && (d =? "/")%char
  | _ => false
  end.

Lemma boundary_tail c s rest :
  ends_star (String c s) = false \/ (starts_slash rest = false /\ starts_star_slash rest = false) ->
  ends_star s = false \/ (starts_slash rest = false /\ starts_star_slash rest = false).
Proof. destruct s as [|d s]; [left; reflexivity | exact (fun H => H)]. Qed.

Lemma tokenize_app : forall n pre rest, String.length pre <= n ->
  ends_star pre = false \/ (starts_slash rest = false /\ starts_star_slash rest = false) ->
  tokenize (pre ++ rest) = (tokenize pre ++ tokenize rest)%list.
Proof.
  induction n as [|n IH]; intros pre rest Hl Hb.
  - destruct pre; [reflexivity | simpl in Hl; lia].
  - destruct pre as [|ch r]; [reflexivity|].
    change (String ch r ++ rest) with (String ch (r ++ rest)).
    rewrite !tokenize_cons. simpl in Hl.
    destruct (ch =? "*")%char eqn:Ech.
    + destruct r as [|c1 [|c2 r']].
      * simpl in Hb. rewrite Ech in Hb. destruct Hb as [Hb|[Hs Hss]]; [discriminate|].
        destruct rest as [|c1 [|c2 rest']]; try reflexivity.
        simpl in Hss. cbn [String.append]. rewrite Hss. reflexivity.
      * destruct rest as [|c2 rest']; cbn [String.append].
        -- change (tokenize "") with (@nil gtok). rewrite app_nil_r. reflexivity.
        -- destruct ((c1 =? "*")%char && (c2 =? "/")%char) eqn:E.
           ++ apply andb_prop in E as [E1 E2]. simpl in Hb. rewrite E1 in Hb.
              simpl in Hb. rewrite E2 in Hb. destruct Hb as [Hb|[Hb _]]; discriminate.
           ++ change (String c1 (String c2 rest')) with (String c1 "" ++ String c2 rest').
              rewrite (IH (String c1 "") (String c2 rest'))
                by (first [simpl in Hl |- *; lia | eapply boundary_tail; exact Hb]).
              reflexivity.
      * cbn [String.append].
        destruct ((c1 =? "*")%char && (c2 =? "/")%char).
        -- rewrite IH; [reflexivity | simpl in Hl; lia |].
           do 3 apply boundary_tail in Hb. exact Hb.
        -- change (String c1 (String c2 (r' ++ rest))) with (String c1 (String c2 r') ++ rest).
           rewrite (IH (String c1 (String c2 r')))
             by (first [simpl in Hl |- *; lia | eapply boundary_tail; exact Hb]).
           reflexivity.
    + assert (Ht : tokenize (r ++ rest) = (tokenize r ++ tokenize rest)%list)
        by (apply IH; [lia | eapply boundary_tail; exact Hb]).
      destruct (ch =? "?")%char; [|destruct (ch =? ".")%char]; rewrite Ht; reflexivity.
Qed.

Lemma tokenize_star_head post : starts_star_slash post = false ->
  tokenize (String "*" post) = TStar :: tokenize post.
Proof.
  intro H. rewrite tokenize_cons. cbv beta iota.
  destruct post as [|c1 [|c2 post']]; try reflexivity.
  simpl in H. rewrite H. reflexivity.
Qed.

Lemma tokenize_segs pre post :
  tokenize (pre ++ "**/" ++ post) = (tokenize pre ++ TSegs :: tokenize post)%list.
Proof.
  rewrite (tokenize_app (String.length pre)) by (auto; right; split; reflexivity).
  reflexivity.
Qed.

Definition single_star (pre post : string) : bool :=
  negb (starts_star_slash post) && negb (ends_star pre && starts_slash post).

Lemma tokenize_star pre post : single_star pre post = true ->
  tokenize (pre ++ "*" ++ post) = (tokenize pre ++ TStar :: tokenize post)%list.
Proof.
  unfold single_star. intro H. apply andb_prop in H as [H1 H2].
  apply negb_true_iff in H1. apply negb_true_iff in H2.
  rewrite (tokenize_app (String.length pre)).
  - change ("*" ++ post) with (String "*" post). rewrite tokenize_star_head by exact H1.
    reflexivity.
  - lia.
  - destruct (ends_star pre) eqn:E; [right | left; reflexivity].
    simpl in H2. split; [reflexivity|]. simpl. exact H2.
Qed.

Lemma tokenize_dstar pre post : starts_slash post = false -> starts_star_slash post = false ->
  tokenize (pre ++ "**" ++ post) = (tokenize pre ++ TStar :: TStar :: tokenize post)%list.
Proof.
  intros H1 H2.
  rewrite (tokenize_app (String.length pre)) by (auto; right; split; reflexivity).
  change ("**" ++ post) with (String "*" (String "*" post)).
  rewrite tokenize_star_head by (simpl; exact H1).
  rewrite tokenize_star_head by exact H2. reflexivity.
Qed.

Lemma tlang_app ts1 ts2 : forall w,
  tlang (ts1 ++ ts2) w <-> exists w1 w2, w = w1 ++ w2 /\ tlang ts1 w1 /\ tlang ts2 w2.
Proof.
  induction ts1 as [|t ts1 IH]; intro w; cbn [tlang List.app].
  - split; [intro H; exists "", w; auto | intros (w1 & w2 & -> & -> & H); exact H].
  - split.
    + intros (a & b & -> & Ha & Hb). apply IH in Hb as (b1 & b2 & -> & Hb1 & Hb2).
      exists (a ++ b1), b2. rewrite sapp_assoc. repeat split; auto. exists a, b1. auto.
    + intros (w1 & w2 & -> & (a & b & -> & Ha & Hb) & Hw2).
      exists a, (b ++ w2). rewrite sapp_assoc. repeat split; auto.
      apply IH. eauto.
Qed.

(** ** Compositional facts about [make(glob).matches] *)

Lemma tlang_star_star ts w : tlang (TStar :: TStar :: ts) w <-> tlang (TStar :: ts) w.
Proof.
  cbn [tlang tok_match]. split.
  - intros (a & q & -> & Ha & b & c & -> & Hb & Hc).
    exists (a ++ b), c. rewrite sapp_assoc, no_slash_app, Ha, Hb. auto.
  - intros (a & c & -> & Ha & Hc). exists "", (a ++ c). repeat split; auto. eauto.
Qed.

Lemma segs_compose pre post p : safe_glob pre = true -> safe_glob post = true ->
  (glob_matches (pre ++ "**/" ++ post) p = Normal true <->
   exists p1 us p2, p = p1 ++ seg_concat us ++ p2 /\ Forall (fun u => no_slash u = true) us
     /\ glob_matches pre p1 = Normal true /\ glob_matches post p2 = Normal true).
Proof.
  intros Hpre Hpost.
  assert (Hs : safe_glob (pre ++ "**/" ++ post) = true)
    by (rewrite !safe_glob_app, Hpre, Hpost; reflexivity).
  rewrite (glob_matches_tlang _ _ Hs), tokenize_segs, tlang_app. split.
  - intros (p1 & q & -> & H1 & w & p2 & -> & (us & Hus & ->) & H2).
    exists p1, us, p2. repeat split; auto; apply glob_matches_tlang; auto.
  - intros (p1 & us & p2 & -> & Hus & H1 & H2).
    apply glob_matches_tlang in H1; [|exact Hpre]. apply glob_matches_tlang in H2; [|exact Hpost].
    exists p1, (seg_concat us ++ p2). repeat split; auto.
    exists (seg_concat us), p2. repeat split; auto. exists us. auto.
Qed.

Lemma star_compose pre post p : safe_glob pre = true -> safe_glob post = true ->
  single_star pre post = true ->
  (glob_matches (pre ++ "*" ++ post) p = Normal true <->
   exists p1 w p2, p = p1 ++ w ++ p2 /\ no_slash w = true
     /\ glob_matches pre p1 = Normal true /\ glob_matches post p2 = Normal true).
Proof.
  intros Hpre Hpost Hone.
  assert (Hs : safe_glob (pre ++ "*" ++ post) = true)
    by (rewrite !safe_glob_app, Hpre, Hpost; reflexivity).
  rewrite (glob_matches_tlang _ _ Hs), tokenize_star, tlang_app by exact Hone. split.
  - intros (p1 & q & -> & H1 & w & p2 & -> & Hw & H2).
    exists p1, w, p2. repeat split; auto; apply glob_matches_tlang; auto.
  - intros (p1 & w & p2 & -> & Hw & H1 & H2).
    apply glob_matches_tlang in H1; [|exact Hpre]. apply glob_matches_tlang in H2; [|exact Hpost].
    exists p1, (w ++ p2). repeat split; auto. exists w, p2. auto.
Qed.

Lemma dstar_star_same pre post p : safe_glob pre = true -> safe_glob post = true ->
  starts_slash post = false -> starts_star_slash post = false ->
  glob_matches (pre ++ "**" ++ post) p = glob_matches (pre ++ "*" ++ post) p.
Proof.
  intros Hpre Hpost H1 H2.
  rewrite !glob_matches_safe by (rewrite !safe_glob_app, Hpre, Hpost; reflexivity).
  f_equal. apply eq_true_iff_eq. rewrite !re_test_glob_re.
  rewrite tokenize_dstar by assumption.
  rewrite tokenize_star by (unfold single_star; rewrite H1, H2, andb_false_r; reflexivity).
  rewrite !tlang_app. split.
  - intros (a & b & -> & Ha & Hb). exists a, b. rewrite <- tlang_star_star. auto.
  - intros (a & b & -> & Ha & Hb). exists a, b. rewrite tlang_star_star. auto.
Qed.

Lemma re_test_empty p : re_test (RCat RBol (RCat REol REps)) p = (p =? "")%string.
Proof.
  apply eq_true_iff_eq. rewrite re_test_bol, String.eqb_eq. split.
  - intros ([k s'] & H). apply in_ends_end in H. tauto.
  - intros ->. exists (0, ""). apply in_ends_end. auto.
Qed.

(** Globs without the wildcard characters '*', '?' and '.' *)
Fixpoint no_wild (g : string) : bool :=
  match g with
  | EmptyString => true
  | String c r => negb (c =? "*")%char && negb (c =? "?")%char && negb (c =? ".")%char
                  && no_wild r
  end.

Lemma tlang_literal g : no_wild g = true -> forall p, tlang (tokenize g) p <-> p = g.
Proof.
  induction g as [|c r IHr]; intros H p.
  - reflexivity.
  - cbn [no_wild] in H. rewrite !andb_true_iff in H. destruct H as [[[H1 H2] H3] Hr].
    apply negb_true_iff in H1, H2, H3. rewrite tokenize_cons, H1, H2, H3.
    cbn [tlang tok_match]. split.
    + intros (w1 & w2 & -> & -> & Hw). apply (IHr Hr) in Hw. subst. reflexivity.
    + intros ->. exists (String c ""), r. split; [reflexivity|]. split; [reflexivity|].
      apply (IHr Hr). reflexivity.
Qed.

(** Where the glob holds no regular-expression metacharacter either, the
    matcher of a wildcard-free glob accepts exactly the glob itself. *)
Lemma literal_glob_exact g p : safe_glob g = true -> no_wild g = true ->
  (glob_matches g p = Normal true <-> p = g).
Proof. intros Hs Hw. rewrite (glob_matches_tlang _ _ Hs). apply tlang_literal. exact Hw. Qed.

Lemma makeSet_set s : makeSet (VSet s) = Normal s.
Proof. destruct s; reflexivity. Qed.

Lemma set_filter_nil l : set_filter (Union []) l = [].
Proof. induction l; simpl; auto. Qed.

(** ** Path length and directory depth *)

Fixpoint no_star (g : string) : bool :=
  match g with
  | EmptyString => true
  | String c r => negb (c =? "*")%char && no_star r
  end.

Fixpoint count_slash (s : string) : nat :=
  match s with
  | EmptyString => 0
  | String c r => (if (c =? "/")%char then 1 else 0) + count_slash r
  end.

(** Whether the glob holds the three characters '**/' in a row. *)
Fixpoint has_globstar (g : string) : bool :=
  match g with
  | EmptyString => false
  | String c r => ((c =? "*")%char && starts_star_slash r) || has_globstar r
  end.

Lemma count_slash_app a b : count_slash (a ++ b) = count_slash a + count_slash b.
Proof. induction a; simpl; [reflexivity|]. rewrite IHa. lia. Qed.

Lemma count_no_slash w : no_slash w = true -> count_slash w = 0.
Proof.
  induction w as [|c w IH]; cbn [no_slash count_slash]; [reflexivity|].
  intro H. apply andb_prop in H as [H1 H2]. apply negb_true_iff in H1. rewrite H1. auto.
Qed.

Lemma tlang_no_star g : no_star g = true ->
  forall p, tlang (tokenize g) p -> String.length p = String.length g.
Proof.
  induction g as [|c r IHr]; intros H p Hp.
  - cbn [tokenize tlang] in Hp. subst. reflexivity.
  - cbn [no_star] in H. apply andb_prop in H as [H1 Hr]. apply negb_true_iff in H1.
    rewrite tokenize_cons, H1 in Hp.
    destruct (c =? "?")%char eqn:E2; [|destruct (c =? ".")%char eqn:E3];
      cbn [tlang tok_match] in Hp; destruct Hp as (w1 & w2 & -> & Hw1 & Hw2);
      apply (IHr Hr) in Hw2.
    + destruct Hw1 as (d & -> & _). simpl. congruence.
    + subst w1. simpl. congruence.
    + subst w1. simpl. congruence.
Qed.

Lemma tlang_count_slash g : has_globstar g = false ->
  forall p, tlang (tokenize g) p -> count_slash p = count_slash g.
Proof.
  induction g as [|c r IHr]; intros H p Hp.
  - cbn [tokenize tlang] in Hp. subst. reflexivity.
  - cbn [has_globstar] in H. apply orb_false_iff in H as [H1 Hr].
    destruct (c =? "*")%char eqn:E1.
    + apply Ascii.eqb_eq in E1. subst c. cbn [andb] in H1.
      rewrite (tokenize_star_head r H1) in Hp.
      cbn [tlang tok_match] in Hp. destruct Hp as (w1 & w2 & -> & Hw1 & Hw2).
      apply (IHr Hr) in Hw2. rewrite count_slash_app, count_no_slash by exact Hw1.
      cbn [count_slash]. rewrite Hw2. reflexivity.
    + rewrite tokenize_cons, E1 in Hp.
      destruct (c =? "?")%char eqn:E2; [|destruct (c =? ".")%char eqn:E3];
        cbn [tlang tok_match] in Hp; destruct Hp as (w1 & w2 & -> & Hw1 & Hw2);
        apply (IHr Hr) in Hw2; rewrite count_slash_app, Hw2.
      * destruct Hw1 as (d & -> & Hd). apply Ascii.eqb_eq in E2. subst c.
        cbn [count_slash]. rewrite Hd. reflexivity.
      * apply Ascii.eqb_eq in E3. subst. reflexivity.
      * subst w1. cbn [count_slash]. destruct (c =? "/")%char; lia.
Qed.

(** Every path is a run of '/'-terminated segments followed by a last,
    '/'-free, name. *)
Lemma split_last_slash p :
  exists us w, Forall (fun u => no_slash u = true) us /\ no_slash w = true /\
    p = seg_concat us ++ w.
Proof.
  induction p as [|c r IH].
  - exists [], "". auto.
  - destruct IH as (us & w & Hus & Hw & ->).
    destruct (c =? "/")%char eqn:Ec.
    + apply Ascii.eqb_eq in Ec. subst c. exists ("" :: us), w. auto.
    + destruct us as [|u us].
      * exists [], (String c w). cbn [no_slash]. rewrite Ec, Hw. auto.
      * inversion Hus as [|? ? Hu Hus']; subst.
        exists (String c u :: us), w. split; [|auto].
        constructor; [|exact Hus']. cbn [no_slash]. rewrite Ec, Hu. reflexivity.
Qed.

(** ** '?' and '.' inside a glob *)

Lemma tokenize_single pre ch post : (ch =? "*")%char = false -> (ch =? "/")%char = false ->
  tokenize (pre ++ String ch post) = (tokenize pre ++ tokenize (String ch post))%list.
Proof.
  intros H1 H2. apply (tokenize_app (String.length pre)); [lia|].
  right. split; [exact H2|]. destruct post; simpl; try rewrite H1; reflexivity.
Qed.

Lemma quest_compose pre post p : safe_glob pre = true -> safe_glob post = true ->
  (glob_matches (pre ++ "?" ++ post) p = Normal true <->
   exists p1 c p2, p = p1 ++ String c p2 /\ (c =? "/")%char = false
     /\ glob_matches pre p1 = Normal true /\ glob_matches post p2 = Normal true).
Proof.
  intros Hpre Hpost.
  assert (Hs : safe_glob (pre ++ "?" ++ post) = true)
    by (rewrite !safe_glob_app, Hpre, Hpost; reflexivity).
  rewrite (glob_matches_tlang _ _ Hs).
  change ("?" ++ post) with (String "?" post).
  rewrite tokenize_single, tlang_app by reflexivity.
  change (tokenize (String "?" post)) with (TQuest :: tokenize post).
  cbn [tlang tok_match]. split.
  - intros (p1 & q & -> & H1 & w & p2 & -> & (c & -> & Hc) & H2).
    exists p1, c, p2. repeat split; auto; apply glob_matches_tlang; auto.
  - intros (p1 & c & p2 & -> & Hc & H1 & H2).
    apply glob_matches_tlang in H1; [|exact Hpre]. apply glob_matches_tlang in H2; [|exact Hpost].
    exists p1, (String c p2). repeat split; auto. exists (String c ""), p2. eauto.
Qed.

Lemma dot_compose pre post p : safe_glob pre = true -> safe_glob post = true ->
  (glob_matches (pre ++ "." ++ post) p = Normal true <->
   exists p1 p2, p = p1 ++ "." ++ p2
     /\ glob_matches pre p1 = Normal true /\ glob_matches post p2 = Normal true).
Proof.
  intros Hpre Hpost.
  assert (Hs : safe_glob (pre ++ "." ++ post) = true)
    by (rewrite !safe_glob_app, Hpre, Hpost; reflexivity).
  rewrite (glob_matches_tlang _ _ Hs).
  change ("." ++ post) with (String "." post).
  rewrite tokenize_single, tlang_app by reflexivity.
  change (tokenize (String "." post)) with (TDot :: tokenize post).
  cbn [tlang tok_match]. split.
  - intros (p1 & q & -> & H1 & w & p2 & -> & -> & H2).
    exists p1, p2. repeat split; auto; apply glob_matches_tlang; auto.
  - intros (p1 & p2 & -> & H1 & H2).
    apply glob_matches_tlang in H1; [|exact Hpre]. apply glob_matches_tlang in H2; [|exact Hpost].
    exists p1, ("." ++ p2). repeat split; auto. exists ".", p2. eauto.
Qed.

(** ** Factories *)

Lemma cmap_Forall2 {A B} (f : A -> completion B) xs ys :
  cmap f xs = Normal ys -> Forall2 (fun x y => f x = Normal y) xs ys.
Proof.
  revert ys. induction xs as [|x xs IH]; intros ys H; cbn [cmap] in H.
  - injection H as <-. constructor.
  - destruct (f x) as [y|e|] eqn:Ef; cbn [cbind] in H; try discriminate.
    destruct (cmap f xs) as [ys'|e|] eqn:Eg; cbn [cbind] in H; try discriminate.
    injection H as <-. constructor; auto.
Qed.

Lemma makeSet_arr xs :
  makeSet (VArr xs) = cbind (cmap new_FileGlob_v xs) (fun fglobs => Normal (FileGlobSet fglobs)).
Proof. reflexivity. Qed.

Lemma new_FileGlob_v_str g : new_FileGlob_v (VStr g) = make g.
Proof. reflexivity. Qed.

Lemma union_matches ss p : set_matches (Union ss) p = existsb (fun s => set_matches s p) ss.
Proof. induction ss as [|s ss IH]; [reflexivity|]. cbn [set_matches existsb]. f_equal; exact IH. Qed.

Lemma set_filter_eq s l : set_filter s l = List.filter (fun path => set_matches s path) l.
Proof. destruct s; try reflexivity. unfold set_filter. induction l; simpl; auto. Qed.

Lemma makeSet_str g fg : make g = Normal fg -> makeSet (VStr g) = Normal (FileGlobSet [fg]).
Proof.
  intro H. change (makeSet (VStr g)) with
    (cbind (cmap new_FileGlob_v [VStr g]) (fun fglobs => Normal (FileGlobSet fglobs))).
  cbn [cmap]. rewrite new_FileGlob_v_str, H. reflexivity.
Qed.

Lemma filter_andb {A} (f g : A -> bool) l :
  List.filter (fun x => f x && g x) l = List.filter g (List.filter f l).
Proof.
  induction l as [|x l IH]; [reflexivity|]. cbn [List.filter].
  destruct (f x); cbn [andb List.filter]; destruct (g x); rewrite IH; reflexivity.
Qed.

(** * Claims *)

(** C1 (failing input): the glob "a+" holds none of '*', '?' and '.', yet
    its matcher accepts the path "aa", which differs from the glob: the '+'
    is copied into the regular expression unescaped and acts as a
    quantifier. *)
Theorem literal_glob_metachar :
  no_wild "a+" = true /\ "aa" <> "a+" /\ glob_matches "a+" "aa" = Normal true.
Proof. split; [reflexivity|]. split; [discriminate|]. vm_compute. reflexivity. Qed.

(** C2 (failing input): [make("(")] does not return a matcher: the pattern
    "^($" handed to [new RegExp] has an unterminated group, so the
    constructor throws a SyntaxError. *)
Theorem make_open_paren_throws : make "(" = Throw SyntaxError.
Proof. vm_compute. reflexivity. Qed.

(** C3 (counterexample): the Pattern Matcher [make("a")] exposes [matches]
    and [filter] and accepts "a", but [makeSet] does not return it
    unchanged: it wraps it into a new Pattern-List Set, which rejects "a". *)
Lemma makeSet_rewraps_matcher :
  exists fg, make "a" = Normal fg /\ fg_matches fg "a" = true /\
  exists s, makeSet (VGlob fg) = Normal s /\ set_matches s "a" = false.
Proof.
  eexists. split; [reflexivity|]. split; [vm_compute; reflexivity|].
  eexists. split; [reflexivity|]. vm_compute. reflexivity.
Qed.

(** C3 (amended): every set built by this module (an instance of [Set]:
    Empty Set, Pattern-List Set, Complement, Union) is returned by [makeSet]
    unchanged; hence applying [makeSet] to the result of [makeSet xs] gives
    that same set back, for every input [xs] on which [makeSet] returns. *)
Theorem makeSet_idempotent_on_sets :
  (forall s, makeSet (VSet s) = Normal s) /\
  (forall xs, cbind (makeSet xs) (fun s => makeSet (VSet s)) = makeSet xs).
Proof.
  split; [exact makeSet_set|].
  intro xs. destruct (makeSet xs) as [s|e|]; cbn [cbind]; [apply makeSet_set | reflexivity ..].
Qed.

(** C4: a '**/' token matches zero or more path segments, each a run of
    non-'/' characters followed by '/': for globs [pre] and [post] free of
    regular-expression metacharacters, [pre ++ "**/" ++ post] matches a
    path exactly when it splits into a match of [pre], a concatenation of
    such segments and a match of [post]. In particular 'a/**/b' matches
    'a/b' (zero segments) and 'a/x/y/b'. *)
Theorem globstar_slash_segments :
  (forall pre post p, safe_glob pre = true -> safe_glob post = true ->
    (glob_matches (pre ++ "**/" ++ post) p = Normal true <->
     exists p1 us p2, p = p1 ++ seg_concat us ++ p2
       /\ Forall (fun u => no_slash u = true) us
       /\ glob_matches pre p1 = Normal true /\ glob_matches post p2 = Normal true)) /\
  glob_matches "a/**/b" "a/b" = Normal true /\
  glob_matches "a/**/b" "a/x/y/b" = Normal true.
Proof.
  split; [exact segs_compose|].
  split; vm_compute; reflexivity.
Qed.

Lemma globstar_slash_segments_witness :
  safe_glob "a/" = true /\ safe_glob "b" = true /\
  glob_matches ("a/" ++ "**/" ++ "b") "a/x/y/b" = Normal true.
Proof.
  split; [reflexivity|]. split; [reflexivity|].
  apply (proj2 (proj1 globstar_slash_segments "a/" "b" "a/x/y/b" eq_refl eq_refl)).
  exists "a/", ["x"; "y"], "b". split; [reflexivity|]. split.
  - repeat constructor.
  - split; vm_compute; reflexivity.
Defined.

(** C5: a single '*' (one not starting a '**/' token) matches a run of
    characters containing no '/': for metacharacter-free globs [pre] and
    [post] where the '*' is not part of a '**/' token ([post] does not
    start with '*/', and [pre] does not end in '*' when [post] starts with
    '/'), [pre ++ "*" ++ post] matches a path exactly when it
    splits into a match of [pre], a '/'-free word and a match of [post].
    In particular 'a/*' rejects 'a/b/c' and accepts 'a/bc'. *)
Theorem star_within_segment :
  (forall pre post p, safe_glob pre = true -> safe_glob post = true ->
    single_star pre post = true ->
    (glob_matches (pre ++ "*" ++ post) p = Normal true <->
     exists p1 w p2, p = p1 ++ w ++ p2 /\ no_slash w = true
       /\ glob_matches pre p1 = Normal true /\ glob_matches post p2 = Normal true)) /\
  glob_matches "a/*" "a/b/c" = Normal false /\
  glob_matches "a/*" "a/bc" = Normal true.
Proof.
  split; [exact star_compose|].
  split; vm_compute; reflexivity.
Qed.

Lemma star_within_segment_witness :
  safe_glob "a/" = true /\ safe_glob "" = true /\ single_star "a/" "" = true /\
  glob_matches ("a/" ++ "*" ++ "") "a/bc" = Normal true.
Proof.
  split; [reflexivity|]. split; [reflexivity|]. split; [reflexivity|].
  apply (proj2 (proj1 star_within_segment "a/" "" "a/bc" eq_refl eq_refl eq_refl)).
  exists "a/", "bc", "". split; [reflexivity|]. split; [reflexivity|].
  split; vm_compute; reflexivity.
Defined.

(** C6 (counterexample): the '**' at the head of '***/b' is not followed
    by '/', but replacing it by '*' changes the matcher: '***/b' accepts
    'xb' (its last two asterisks and the slash form a '**/' token), while
    '**/b' rejects it. *)
Lemma dangling_dstar_counterexample :
  starts_slash "*/b" = false /\
  glob_matches ("" ++ "**" ++ "*/b") "xb" <> glob_matches ("" ++ "*" ++ "*/b") "xb".
Proof. split; [reflexivity|]. vm_compute. discriminate. Qed.

(** C6 (amended): in a glob free of regular-expression metacharacters, a
    '**' followed neither by '/' nor by '*/' behaves as a plain '*':
    replacing it by '*' leaves the result of the matcher unchanged on
    every path. *)
Theorem dangling_dstar_as_star pre post p :
  safe_glob pre = true -> safe_glob post = true ->
  starts_slash post = false -> starts_star_slash post = false ->
  glob_matches (pre ++ "**" ++ post) p = glob_matches (pre ++ "*" ++ post) p.
Proof. exact (dstar_star_same pre post p). Qed.

Lemma dangling_dstar_as_star_witness :
  glob_matches ("src/" ++ "**" ++ ".js") "src/main.js" =
  glob_matches ("src/" ++ "*" ++ ".js") "src/main.js" /\
  glob_matches ("src/" ++ "**" ++ ".js") "src/main.js" = Normal true.
Proof.
  split.
  - apply dangling_dstar_as_star; reflexivity.
  - vm_compute. reflexivity.
Defined.

(** C7: for every set [s] and list of paths [l], [s.filter(l)] keeps, in
    their original order, exactly the elements of [l] that [s.matches]
    accepts. *)
Theorem set_filter_matches s l :
  set_filter s l = List.filter (fun path => set_matches s path) l.
Proof.
  destruct s; try reflexivity.
  unfold set_filter. induction l; simpl; auto.
Qed.

(** C8: whenever [make(g)] returns a matcher, that matcher is not an
    instance of [Set], and [makeSet] treats it as a raw glob: it builds a
    new Pattern-List Set around a FileGlob made from it, whose pattern is
    '^$' (the matcher has no [length]), so the new set accepts only the
    empty path. *)
Theorem make_not_a_set g fg :
  make g = Normal fg ->
  isaSet (VGlob fg) = false /\
  exists fg', makeSet (VGlob fg) = Normal (FileGlobSet [fg']) /\
    forall p, set_matches (FileGlobSet [fg']) p = (p =? "")%string.
Proof.
  intros _. split; [reflexivity|].
  exists {| fg_re := RCat RBol (RCat REol REps) |}. split; [reflexivity|].
  intro p. cbn [set_matches existsb]. unfold fg_matches. cbn [fg_re].
  rewrite re_test_empty. apply orb_false_r.
Qed.

Lemma make_not_a_set_witness :
  exists fg, make "*.js" = Normal fg /\ isaSet (VGlob fg) = false.
Proof.
  eexists. split; [reflexivity|].
  apply (proj1 (make_not_a_set "*.js" _ eq_refl)).
Defined.

(** C9: the segments consumed by a '**/' token may be empty: for globs
    [pre] and [post] free of regular-expression metacharacters, whenever
    [pre] matches [p1] and [post] matches [p2], the glob
    [pre ++ "**/" ++ post] matches [p1] followed by any sequence of
    '/'-terminated segments, where each segment is a '/'-free word that may
    be empty (so any run of consecutive slashes is accepted), followed by
    [p2]. For instance 'a/**/b' accepts 'a//b'. *)
Theorem globstar_empty_segments :
  (forall pre post p1 us p2, safe_glob pre = true -> safe_glob post = true ->
    Forall (fun u => no_slash u = true) us ->
    glob_matches pre p1 = Normal true -> glob_matches post p2 = Normal true ->
    glob_matches (pre ++ "**/" ++ post) (p1 ++ seg_concat us ++ p2) = Normal true) /\
  glob_matches "a/**/b" "a//b" = Normal true.
Proof.
  split.
  - intros pre post p1 us p2 Hpre Hpost Hus H1 H2.
    apply (proj2 (segs_compose pre post _ Hpre Hpost)).
    exists p1, us, p2. auto.
  - vm_compute. reflexivity.
Qed.

Lemma globstar_empty_segments_witness :
  glob_matches ("src/" ++ "**/" ++ "*.js") ("src/" ++ seg_concat [""; ""; "x"] ++ "a.js")
    = Normal true.
Proof.
  apply (proj1 globstar_empty_segments);
    [reflexivity | reflexivity | repeat constructor | vm_compute; reflexivity ..].
Defined.

(** C10: [makeUnion()] with no arguments returns a Union of no sets; its
    [matches] is false on every path and its [filter] returns the empty
    list on every list. *)
Theorem makeUnion_nullary :
  makeUnion [] = Normal (Union []) /\
  (forall p, set_matches (Union []) p = false) /\
  (forall l, set_filter (Union []) l = []).
Proof.
  split; [reflexivity|]. split; [reflexivity|]. exact set_filter_nil.
Qed.

(** * Further properties of the code *)

(** A glob free of regular-expression metacharacters and of the wildcards
    '*', '?' and '.' accepts exactly the one path equal to it. *)
Theorem literal_glob_matches_itself g p :
  safe_glob g = true -> no_wild g = true ->
  (glob_matches g p = Normal true <-> p = g).
Proof. exact (literal_glob_exact g p). Qed.

Lemma literal_glob_matches_itself_witness :
  glob_matches "src/main" "src/main" = Normal true.
Proof. apply (proj2 (literal_glob_matches_itself "src/main" "src/main" eq_refl eq_refl)). reflexivity. Defined.

(** '?' matches exactly one character other than '/'. *)
Theorem quest_one_char pre post p :
  safe_glob pre = true -> safe_glob post = true ->
  (glob_matches (pre ++ "?" ++ post) p = Normal true <->
   exists p1 c p2, p = p1 ++ String c p2 /\ (c =? "/")%char = false
     /\ glob_matches pre p1 = Normal true /\ glob_matches post p2 = Normal true).
Proof. exact (quest_compose pre post p). Qed.

Lemma quest_one_char_witness :
  glob_matches ("test" ++ "?" ++ "/a") "tests/a" = Normal true.
Proof.
  apply (proj2 (quest_one_char "test" "/a" "tests/a" eq_refl eq_refl)).
  exists "test", "s"%char, "/a". repeat split; vm_compute; reflexivity.
Defined.

(** '.' matches a literal '.' only (it is escaped in the regular
    expression). *)
Theorem dot_literal pre post p :
  safe_glob pre = true -> safe_glob post = true ->
  (glob_matches (pre ++ "." ++ post) p = Normal true <->
   exists p1 p2, p = p1 ++ "." ++ p2
     /\ glob_matches pre p1 = Normal true /\ glob_matches post p2 = Normal true).
Proof. exact (dot_compose pre post p). Qed.

Lemma dot_literal_witness :
  glob_matches ("*" ++ "." ++ "js") "a.js" = Normal true.
Proof.
  apply (proj2 (dot_literal "*" "js" "a.js" eq_refl eq_refl)).
  exists "a", "js". repeat split; vm_compute; reflexivity.
Defined.

(** A metacharacter-free glob with no '*' only matches paths exactly as
    long as the glob. *)
Theorem no_star_same_length g p :
  safe_glob g = true -> no_star g = true ->
  glob_matches g p = Normal true -> String.length p = String.length g.
Proof.
  intros Hs Hn H. apply (glob_matches_tlang _ _ Hs) in H. exact (tlang_no_star g Hn p H).
Qed.

Lemma no_star_same_length_witness :
  String.length "lib/a.js" = String.length "lib/?.js".
Proof. apply (no_star_same_length "lib/?.js" "lib/a.js"); vm_compute; reflexivity. Defined.

(** A metacharacter-free glob without the sequence '**/' only matches paths
    with as many '/' as the glob: single '*' and '?' never cross a
    directory boundary, so the match keeps the directory depth. *)
Theorem no_globstar_same_depth g p :
  safe_glob g = true -> has_globstar g = false ->
  glob_matches g p = Normal true -> count_slash p = count_slash g.
Proof.
  intros Hs Hn H. apply (glob_matches_tlang _ _ Hs) in H. exact (tlang_count_slash g Hn p H).
Qed.

Lemma no_globstar_same_depth_witness :
  count_slash "src/lib/a.js" = count_slash "src/*/*.js".
Proof. apply (no_globstar_same_depth "src/*/*.js" "src/lib/a.js"); vm_compute; reflexivity. Defined.

(** The glob '**/*' matches every path. *)
Theorem globstar_star_matches_all p : glob_matches "**/*" p = Normal true.
Proof.
  apply (glob_matches_tlang "**/*" p eq_refl).
  change (tokenize "**/*") with [TSegs; TStar]. cbn [tlang tok_match].
  destruct (split_last_slash p) as (us & w & Hus & Hw & ->).
  exists (seg_concat us), w. split; [reflexivity|]. split; [exists us; auto|].
  exists w, "". rewrite sapp_nil_r. auto.
Qed.

(** [makeSet(glob)] on a single glob string builds a Pattern-List Set of
    the one matcher [make(glob)]; the set's [matches] and [filter] agree with
    the matcher's own. *)
Theorem makeSet_string g fg :
  make g = Normal fg ->
  makeSet (VStr g) = Normal (FileGlobSet [fg]) /\
  (forall p, set_matches (FileGlobSet [fg]) p = fg_matches fg p) /\
  (forall l, set_filter (FileGlobSet [fg]) l = fg_filter fg l).
Proof.
  intro H. split; [|split].
  - change (makeSet (VStr g)) with
      (cbind (cmap new_FileGlob_v [VStr g]) (fun fglobs => Normal (FileGlobSet fglobs))).
    cbn [cmap]. rewrite new_FileGlob_v_str, H. reflexivity.
  - intro p. cbn [set_matches existsb]. apply orb_false_r.
  - intro l. rewrite set_filter_eq. unfold fg_filter. apply filter_ext. intro p.
    cbn [set_matches existsb]. apply orb_false_r.
Qed.

Lemma makeSet_string_witness :
  exists fg, make "*.js" = Normal fg /\ makeSet (VStr "*.js") = Normal (FileGlobSet [fg]).
Proof.
  eexists. split; [reflexivity|].
  apply (proj1 (makeSet_string "*.js" _ eq_refl)).
Defined.

(** [makeSet] on an array of glob strings builds a set that matches a path
    exactly when one of the globs matches it. *)
Theorem makeSet_strings_any gs s p :
  makeSet (VArr (map VStr gs)) = Normal s ->
  (set_matches s p = true <-> exists g, In g gs /\ glob_matches g p = Normal true).
Proof.
  rewrite makeSet_arr. intro H.
  destruct (cmap new_FileGlob_v (map VStr gs)) as [fgs|e|] eqn:E; cbn [cbind] in H;
    try discriminate.
  injection H as <-. apply cmap_Forall2 in E.
  cbn [set_matches]. rewrite existsb_exists.
  remember (map VStr gs) as xs eqn:Exs. revert gs Exs.
  induction E as [|x fg xs fgs Hx Hrest IH]; intros gs Exs;
    destruct gs as [|g gs]; try discriminate.
  - split; [intros (? & [] & _) | intros (? & [] & _)].
  - injection Exs as -> Exs. rewrite new_FileGlob_v_str in Hx.
    specialize (IH gs Exs). cbn [In]. split.
    + intros (fg' & [<- | Hin] & Hm).
      * exists g. split; [left; reflexivity|]. unfold glob_matches. rewrite Hx. cbn. congruence.
      * destruct (proj1 IH (ex_intro _ fg' (conj Hin Hm))) as (g' & Hg' & Hm').
        exists g'. auto.
    + intros (g' & [<- | Hin] & Hm).
      * exists fg. split; [left; reflexivity|]. unfold glob_matches in Hm. rewrite Hx in Hm.
        cbn in Hm. congruence.
      * destruct (proj2 IH (ex_intro _ g' (conj Hin Hm))) as (fg' & Hfg' & Hm').
        exists fg'. auto.
Qed.

Lemma makeSet_strings_any_witness :
  exists s, makeSet (VArr [VStr "*.js"; VStr "*.md"]) = Normal s /\ set_matches s "a.md" = true.
Proof.
  eexists. split; [reflexivity|].
  apply (proj2 (makeSet_strings_any ["*.js"; "*.md"] _ "a.md" eq_refl)).
  exists "*.md". split; [right; left; reflexivity | vm_compute; reflexivity].
Defined.

(** [makeSet] on an array of glob strings throws the error of the first
    glob whose [make] throws: the globs before it compile, and those after
    it are never compiled. *)
Theorem makeSet_first_throw gs1 g gs2 e :
  Forall (fun g' => exists fg, make g' = Normal fg) gs1 -> make g = Throw e ->
  makeSet (VArr (map VStr (gs1 ++ g :: gs2)%list)) = Throw e.
Proof.
  intros H1 H2. rewrite makeSet_arr.
  assert (Hc : cmap new_FileGlob_v (map VStr (gs1 ++ g :: gs2)%list) = Throw e).
  { induction H1 as [|g' gs1 (fg & Hfg) _ IH]; cbn [map List.app cmap];
      rewrite new_FileGlob_v_str.
    - rewrite H2. reflexivity.
    - rewrite Hfg. cbn [cbind]. rewrite IH. reflexivity. }
  rewrite Hc. reflexivity.
Qed.

Lemma makeSet_first_throw_witness :
  makeSet (VArr [VStr "*.js"; VStr "("; VStr "*.md"]) = Throw SyntaxError.
Proof.
  apply (makeSet_first_throw ["*.js"] "(" ["*.md"] SyntaxError).
  - constructor; [eexists; reflexivity | constructor].
  - vm_compute. reflexivity.
Defined.

(** Empty inputs: [makeSet(undefined)] is the Empty Set and [makeSet([])] a
    Pattern-List Set of no globs; both match no path and filter every list
    to the empty list.  [makeSet([undefined])], by contrast, throws a
    TypeError (the FileGlob constructor reads [undefined.length]). *)
Theorem makeSet_empty_inputs :
  makeSet VUndef = Normal EmptySet /\
  makeSet (VArr []) = Normal (FileGlobSet []) /\
  (forall p, set_matches EmptySet p = false /\ set_matches (FileGlobSet []) p = false) /\
  (forall l, set_filter EmptySet l = [] /\ set_filter (FileGlobSet []) l = []) /\
  makeSet (VArr [VUndef]) = Throw TypeError.
Proof.
  split; [reflexivity|]. split; [reflexivity|]. split; [split; reflexivity|].
  split; [|reflexivity].
  intro l. split; [reflexivity|]. rewrite set_filter_eq. induction l; simpl; auto.
Qed.

(** An array holding a set is not a set: [makeSet([S])] wraps [S] as a
    glob, whose FileGlob has the pattern '^$' ([S] has no [length]); the
    result matches the empty path only, whatever [S] matches. *)
Theorem makeSet_array_of_set s :
  exists fg, makeSet (VArr [VSet s]) = Normal (FileGlobSet [fg]) /\
    forall p, set_matches (FileGlobSet [fg]) p = (p =? "")%string.
Proof.
  exists {| fg_re := RCat RBol (RCat REol REps) |}. split; [reflexivity|].
  intro p. cbn [set_matches existsb]. unfold fg_matches. cbn [fg_re].
  rewrite re_test_empty. apply orb_false_r.
Qed.

(** [makeCompliment(a, b)] on two glob strings matches a path exactly when
    the glob [a] matches it and the glob [b] does not; its [filter] keeps
    the matches of [a], in order, that [b] does not match. *)
Theorem makeCompliment_strings a b fa fb :
  make a = Normal fa -> make b = Normal fb ->
  makeCompliment (VStr a) (VStr b) = Normal (Compliment (FileGlobSet [fa]) (FileGlobSet [fb])) /\
  (forall p, set_matches (Compliment (FileGlobSet [fa]) (FileGlobSet [fb])) p
             = fg_matches fa p && negb (fg_matches fb p)) /\
  (forall l, set_filter (Compliment (FileGlobSet [fa]) (FileGlobSet [fb])) l
             = List.filter (fun p => negb (fg_matches fb p)) (fg_filter fa l)).
Proof.
  intros Ha Hb. split; [|split].
  - unfold makeCompliment. rewrite (makeSet_str a fa Ha), (makeSet_str b fb Hb). reflexivity.
  - intro p. cbn [set_matches existsb]. rewrite !orb_false_r. reflexivity.
  - intro l. rewrite set_filter_eq. unfold fg_filter.
    rewrite <- filter_andb. apply filter_ext. intro p.
    cbn [set_matches existsb]. rewrite !orb_false_r. reflexivity.
Qed.

Lemma makeCompliment_strings_witness :
  exists c, makeCompliment (VStr "*.js") (VStr "test*") = Normal c /\
    set_matches c "main.js" = true /\ set_matches c "test.js" = false.
Proof.
  eexists. split.
  - apply (proj1 (makeCompliment_strings "*.js" "test*" _ _ eq_refl eq_refl)).
  - split; vm_compute; reflexivity.
Defined.

(** An undefined [excludes] excludes nothing: [makeCompliment(x)] matches
    what [makeSet(x)] matches; an undefined [includes] includes nothing:
    [makeCompliment(undefined, x)] matches no path. *)
Theorem makeCompliment_undefined x s :
  makeSet x = Normal s ->
  makeCompliment x VUndef = Normal (Compliment s EmptySet) /\
  (forall p, set_matches (Compliment s EmptySet) p = set_matches s p) /\
  makeCompliment VUndef x = Normal (Compliment EmptySet s) /\
  (forall p, set_matches (Compliment EmptySet s) p = false).
Proof.
  intro H. unfold makeCompliment. rewrite H. cbn [cbind makeSet].
  split; [reflexivity|]. split; [intro p; cbn [set_matches negb]; apply andb_true_r|].
  split; reflexivity.
Qed.

Lemma makeCompliment_undefined_witness :
  makeCompliment (VStr "*.js") VUndef =
    Normal (Compliment (FileGlobSet [{| fg_re := glob_re "*.js" |}]) EmptySet).
Proof.
  apply (makeCompliment_undefined (VStr "*.js")). vm_compute. reflexivity.
Defined.

(** The complement of a set with itself matches no path. *)
Theorem makeCompliment_self x s :
  makeSet x = Normal s ->
  makeCompliment x x = Normal (Compliment s s) /\
  (forall p, set_matches (Compliment s s) p = false).
Proof.
  intro H. unfold makeCompliment. rewrite H. split; [reflexivity|].
  intro p. cbn [set_matches]. apply andb_negb_r.
Qed.

Lemma makeCompliment_self_witness :
  makeCompliment (VStr "*") (VStr "*") =
    Normal (Compliment (FileGlobSet [{| fg_re := glob_re "*" |}])
                       (FileGlobSet [{| fg_re := glob_re "*" |}])).
Proof. apply (makeCompliment_self (VStr "*")). vm_compute. reflexivity. Defined.

(** [makeUnion(x1, ..., xn)] matches a path exactly when the set
    [makeSet(xi)] of one of its arguments matches it. *)
Theorem makeUnion_any args u :
  makeUnion args = Normal u ->
  forall p, set_matches u p = true <->
    exists x s, In x args /\ makeSet x = Normal s /\ set_matches s p = true.
Proof.
  unfold makeUnion. intros H p.
  destruct (cmap makeSet args) as [ss|e|] eqn:E; cbn [cbind] in H; try discriminate.
  injection H as <-. apply cmap_Forall2 in E.
  rewrite union_matches, existsb_exists.
  induction E as [|x s xs ss Hx Hrest IH]; cbn [In].
  - split; [intros (? & [] & _) | intros (? & ? & [] & _)].
  - split.
    + intros (s' & [<- | Hin] & Hm).
      * exists x, s. auto.
      * destruct (proj1 IH (ex_intro _ s' (conj Hin Hm))) as (x' & s'' & Hin' & Hs'' & Hm').
        exists x', s''. auto.
    + intros (x' & s' & [<- | Hin] & Hs' & Hm).
      * rewrite Hx in Hs'. injection Hs' as <-. exists s. auto.
      * destruct (proj2 IH (ex_intro _ x' (ex_intro _ s' (conj Hin (conj Hs' Hm)))))
          as (s'' & Hin'' & Hm'').
        exists s''. auto.
Qed.

Lemma makeUnion_any_witness :
  exists u, makeUnion [VStr "*.js"; VArr [VStr "*.md"]] = Normal u /\ set_matches u "a.md" = true.
Proof.
  eexists. split; [reflexivity|].
  apply (proj2 (makeUnion_any [VStr "*.js"; VArr [VStr "*.md"]] _ eq_refl "a.md")).
  exists (VArr [VStr "*.md"]). eexists. split; [right; left; reflexivity|].
  split; [reflexivity | vm_compute; reflexivity].
Defined.

(** Filtering with a set twice gives the result of filtering once, and
    filtering a concatenation filters each part. *)
Theorem set_filter_idem_app s l l1 l2 :
  set_filter s (set_filter s l) = set_filter s l /\
  set_filter s (l1 ++ l2)%list = (set_filter s l1 ++ set_filter s l2)%list.
Proof.
  rewrite !set_filter_eq. split.
  - induction l as [|x l IH]; [reflexivity|]. cbn [List.filter].
    destruct (set_matches s x) eqn:E; [cbn [List.filter]; rewrite E, IH; reflexivity | exact IH].
  - induction l1 as [|x l1 IH]; [reflexivity|]. cbn [List.filter List.app].
    destruct (set_matches s x); [cbn [List.app]; rewrite IH|]; auto.
Qed.

(** A Complement's [filter] keeps, in order, the paths that the [includes]
    set's [filter] keeps and the [excludes] set does not match. *)
Theorem compliment_filter i e l :
  set_filter (Compliment i e) l = List.filter (fun p => negb (set_matches e p)) (set_filter i l).
Proof.
  rewrite !set_filter_eq. exact (filter_andb (fun p => set_matches i p) _ l).
Qed.
